(** * CircularBuffer (src/mod.ts): a shallow embedding and its properties

  The class [CircularBuffer<T>] keeps three private fields: the backing
  JavaScript array [_buffer], the counter [_size] and the cursor
  [_position].  Every method is embedded as a function on a record with
  these three fields.  JavaScript specifics that the methods rely on are
  written out:

  - [%] is the remainder whose sign follows the dividend, and [x % 0] is
    [NaN]; comparisons with [NaN] are false and arithmetic on [NaN] is [NaN];
  - reading an array outside [0, length) gives [undefined]; writing at an
    integer index beyond the end extends the array with holes; writing at
    a key that is not an array index ([NaN], a negative integer) stores an
    ordinary property and leaves [length] alone;
  - assigning [length = 0] removes every element;
  - [slice()] copies the elements only.

  Integers stand for the JavaScript numbers that are integers (all
  quantities stay far below 2^53); [T] is the type of the defined values
  stored in the buffer, and [None : option T] is [undefined] (a hole reads
  as [undefined] as well). *)

From stdpp Require Import base numbers list option.

Local Open Scope Z_scope.

(** ** JavaScript numbers: the integers and [NaN] *)

Inductive number : Type :=
| Num (z : Z)
| NaN.

Global Instance number_eq_dec : EqDecision number.
Proof. solve_decision. Defined.

Module Number.

Definition add (a b : number) : number :=
  match a, b with
  | Num x, Num y => Num (x + y)
  | _, _ => NaN
  end.

Definition sub (a b : number) : number :=
  match a, b with
  | Num x, Num y => Num (x - y)
  | _, _ => NaN
  end.

(** [a % b]: truncated remainder, [NaN] for a zero divisor. *)
Definition rem (a b : number) : number :=
  match a, b with
  | Num x, Num y => if decide (y = 0) then NaN else Num (Z.rem x y)
  | _, _ => NaN
  end.

End Number.

(** ** JavaScript arrays *)

Section Array.
Context {T : Type}.

(** [elems] are the indexed elements ([length elems] is the array's
    [length]); [props] are the properties stored under keys that are not
    array indices, newest first. *)
Record array : Type := Array {
  elems : list (option T);
  props : list (number * option T)
}.

Definition array_length (a : array) : Z := Z.of_nat (length (elems a)).

Fixpoint prop_lookup (k : number) (ps : list (number * option T)) : option T :=
  match ps with
  | [] => None
  | (k', v) :: rest => if decide (k = k') then v else prop_lookup k rest
  end.

(** [a[k]] *)
Definition array_get (a : array) (k : number) : option T :=
  match k with
  | Num z =>
      if decide (0 <= z)
      then default None (elems a !! Z.to_nat z)
      else prop_lookup k (props a)
  | NaN => prop_lookup k (props a)
  end.

(** [a[k] = v] *)
Definition array_set (a : array) (k : number) (v : option T) : array :=
  match k with
  | Num z =>
      if decide (0 <= z)
      then
        let n := Z.to_nat z in
        if decide (n < length (elems a))%nat
        then Array (<[n := v]> (elems a)) (props a)
        else Array (elems a ++ replicate (n - length (elems a)) None ++ [v])
                   (props a)
      else Array (elems a) ((k, v) :: props a)
  | NaN => Array (elems a) ((k, v) :: props a)
  end.

(** [new Array(n)] *)
Definition array_new (n : nat) : array := Array (replicate n None) [].

(** [[...iterable]] *)
Definition array_of (items : list T) : array := Array (Some <$> items) [].

(** [a.length = 0] *)
Definition array_truncate (a : array) : array := Array [] (props a).

(** [a.slice()] *)
Definition array_slice (a : array) : array := Array (elems a) [].

End Array.

Global Arguments array : clear implicits.

(** ** The class *)

(** What a method that may throw produces. *)
Inductive completion (A : Type) : Type :=
| Return (a : A)
| ThrowRangeError.
Global Arguments Return {A} a.
Global Arguments ThrowRangeError {A}.

(** The object returned by the iterator's [next]. *)
Inductive IteratorResult (A : Type) : Type :=
| Value (value : A)
| Done.
Global Arguments Value {A} value.
Global Arguments Done {A}.

Module CircularBuffer.
Section Methods.
Context {T : Type}.

Record t : Type := Build {
  _buffer : array T;
  _size : Z;
  _position : number
}.

(** [static from(iterable)] *)
Definition from (iterable : list T) : t :=
  let buffer := array_of iterable in
  Build buffer (array_length buffer) (Num 0).

(** [static withCapacity(capacity)] *)
Definition withCapacity (capacity : nat) : t :=
  Build (array_new capacity) 0 (Num 0).

Definition size (b : t) : Z := _size b.

Definition capacity (b : t) : Z := array_length (_buffer b).

(** The [for] loop of [push]: [items] are the items not written yet and
    [i] is the loop counter. *)
Fixpoint push_loop (buffer : array T) (position : number) (size capacity : Z)
    (items : list T) (i : Z) : array T :=
  match items with
  | [] => buffer
  | item :: rest =>
      let index :=
        Number.rem (Number.add (Number.add position (Num size)) (Num i))
                   (Num capacity) in
      push_loop (array_set buffer index (Some item))
                position size capacity rest (i + 1)
  end.

Definition push (b : t) (items : list T) : t :=
  let capacity := array_length (_buffer b) in
  let buffer := push_loop (_buffer b) (_position b) (_size b) capacity items 0 in
  let overlap := Z.max (_size b + Z.of_nat (length items) - capacity) 0 in
  Build buffer
        (Z.min (_size b + Z.of_nat (length items)) capacity)
        (Number.rem (Number.add (_position b) (Num overlap)) (Num capacity)).

Definition pop (b : t) : option T * t :=
  if decide (_size b = 0) then (None, b)
  else
    let item :=
      array_get (_buffer b)
        (Number.sub (Number.add (_position b) (Num (_size b))) (Num 1)) in
    (item, Build (_buffer b) (_size b - 1) (_position b)).

Definition shift (b : t) : option T * t :=
  if decide (_size b = 0) then (None, b)
  else
    let item := array_get (_buffer b) (_position b) in
    (item,
     Build (_buffer b) (_size b - 1)
           (Number.rem (Number.add (_position b) (Num 1))
                       (Num (array_length (_buffer b))))).

Definition set (b : t) (index : Z) (item : T) : completion t :=
  if (index <=? - _size b) || (index >=? _size b) then ThrowRangeError
  else
    let boundedIndex := if index <? 0 then _size b + index else index in
    Return
      (Build
         (array_set (_buffer b)
            (Number.rem (Number.add (_position b) (Num boundedIndex))
                        (Num (array_length (_buffer b))))
            (Some item))
         (_size b) (_position b)).

Definition get (b : t) (index : Z) : option T :=
  if (index <=? - _size b - 1) || (index >=? _size b) then None
  else
    let boundedIndex := if index <? 0 then _size b + index else index in
    array_get (_buffer b)
      (Number.rem (Number.add (_position b) (Num boundedIndex))
                  (Num (array_length (_buffer b)))).

Definition clear (b : t) : t :=
  Build (array_truncate (_buffer b)) 0 (Num 0).

(** The [for] loop of [resize]: [n] iterations remain, [i] is the loop
    counter; [b] is the buffer before the call. *)
Fixpoint resize_loop (b : t) (newBuffer : array T) (i : Z) (n : nat) : array T :=
  match n with
  | O => newBuffer
  | S n' => resize_loop b (array_set newBuffer (Num i) (get b i)) (i + 1) n'
  end.

Definition resize (b : t) (newCapacity : nat) : t :=
  let newBuffer := array_new newCapacity in
  let newSize := Z.min (_size b) (Z.of_nat newCapacity) in
  Build (resize_loop b newBuffer 0 (Z.to_nat newSize)) newSize (Num 0).

Definition clone (b : t) : t :=
  Build (array_slice (_buffer b)) (_size b) (_position b).

(** [next] of the iterator object; [index] is the variable the closure
    captures, returned updated. *)
Definition next (b : t) (index : Z) : IteratorResult (option T) * Z :=
  if decide (index < _size b) then (Value (get b index), index + 1)
  else (Done, index).

(** Draining the iterator, as [[...buffer]] does: [None] when [fuel]
    calls to [next] did not reach [done]. *)
Fixpoint spread (fuel : nat) (b : t) (index : Z) : option (list (option T)) :=
  match fuel with
  | O => None
  | S fuel' =>
      match next b index with
      | (Value v, index') => cons v <$> spread fuel' b index'
      | (Done, _) => Some []
      end
  end.

(** [[...buffer]]: one call to [next] per element and a last one. *)
Definition traversal (b : t) : option (list (option T)) :=
  spread (S (Z.to_nat (_size b))) b 0.

(** ** Vocabulary of the properties *)

(** The logical elements, oldest first: [get(0)], ..., [get(size - 1)]. *)
Definition contents (b : t) : list (option T) :=
  (λ i : nat, get b (Z.of_nat i)) <$> seq 0 (Z.to_nat (_size b)).

(** The logical index in [0, size) that a valid index (negative or not)
    stands for: the [boundedIndex] of [get] and [set]. *)
Definition logical_index (b : t) (index : Z) : Z :=
  if index <? 0 then _size b + index else index.

(** The invariants of the data model. *)
Record invariants (b : t) : Prop := Invariants {
  size_bounds : 0 <= size b <= capacity b;
  position_bounds :
    0 < capacity b → ∃ p, _position b = Num p ∧ 0 <= p < capacity b;
  zero_capacity : capacity b = 0 → size b = 0
}.

(** Every logical element is a stored value (no hole, no [undefined]). *)
Definition occupied (b : t) : Prop :=
  ∀ i, 0 <= i < _size b → is_Some (get b i).

Definition wf (b : t) : Prop := invariants b ∧ occupied b.

(** The public operations on an existing buffer. *)
Inductive call : Type :=
| Push (items : list T)
| Pop
| Shift
| Set_ (index : Z) (item : T)
| Get (index : Z)
| Clear
| Resize (newCapacity : nat)
| Clone
| Traverse.

(** The buffer a call leaves behind (for [clone], the buffer it returns). *)
Definition run (c : call) (b : t) : completion t :=
  match c with
  | Push items => Return (push b items)
  | Pop => Return (pop b).2
  | Shift => Return (shift b).2
  | Set_ index item => set b index item
  | Get _ => Return b
  | Clear => Return (clear b)
  | Resize newCapacity => Return (resize b newCapacity)
  | Clone => Return (clone b)
  | Traverse => Return b
  end.

(** The states a program can build: a factory, then calls that return. *)
Inductive reachable : t → Prop :=
| reachable_from iterable : reachable (from iterable)
| reachable_withCapacity capacity : reachable (withCapacity capacity)
| reachable_run c b b' : reachable b → run c b = Return b' → reachable b'.

End Methods.
Global Arguments t : clear implicits.
Global Arguments call : clear implicits.
End CircularBuffer.

Import CircularBuffer.

(** The last [n] elements of a list (all of it when it is shorter). *)
Definition lastn {A : Type} (n : nat) (l : list A) : list A :=
  drop (length l - n) l.

(** * Properties *)

Section Properties.
Context {T : Type}.
Implicit Types (a : array T) (b : t T) (items : list T) (v : option T).

(** ** Arithmetic of [%] *)

Lemma rem_nonneg (x c : Z) :
  0 <= x → 0 < c → Number.rem (Num x) (Num c) = Num (x mod c).
Proof.
  intros Hx Hc. unfold Number.rem.
  destruct (decide (c = 0)) as [->|_]; [lia|].
  by rewrite Z.rem_mod_nonneg by lia.
Qed.

Lemma rem_zero (x : number) : Number.rem x (Num 0) = NaN.
Proof. by destruct x. Qed.

Lemma mod_eq_multiple (x y c : Z) :
  0 < c → x mod c = y mod c → ∃ k, x - y = k * c.
Proof.
  intros Hc Heq. exists (x / c - y / c).
  pose proof (Z.div_mod x c ltac:(lia)). pose proof (Z.div_mod y c ltac:(lia)).
  nia.
Qed.

Lemma mod_shift_ne (x k c : Z) : 0 < k < c → (x + k) mod c ≠ x mod c.
Proof.
  intros Hk Heq. destruct (mod_eq_multiple (x + k) x c) as [m Hm]; [lia|done|].
  destruct (decide (m <= 0)).
  - assert (m * c <= 0) by (apply Z.mul_nonpos_nonneg; lia). lia.
  - assert (1 * c <= m * c) by (apply Z.mul_le_mono_nonneg_r; lia). lia.
Qed.

(** ** Reading and writing array elements *)

Lemma array_get_set_eq a (z : Z) v :
  0 <= z < array_length a → array_get (array_set a (Num z) v) (Num z) = v.
Proof.
  unfold array_length, array_get, array_set. intros Hz.
  rewrite !decide_True by lia. cbn.
  by rewrite list_lookup_insert_eq by lia.
Qed.

Lemma array_get_set_ne a (z z' : Z) v :
  0 <= z < array_length a → z ≠ z' →
  array_get (array_set a (Num z) v) (Num z') = array_get a (Num z').
Proof.
  unfold array_length, array_get, array_set. intros Hz Hne.
  rewrite (decide_True (P := 0 <= z)) by lia.
  rewrite (decide_True (P := (Z.to_nat z < _)%nat)) by lia. cbn.
  destruct (decide (0 <= z')); [|done].
  by rewrite list_lookup_insert_ne by lia.
Qed.

Lemma array_length_set a (z : Z) v :
  0 <= z < array_length a → array_length (array_set a (Num z) v) = array_length a.
Proof.
  unfold array_length, array_set. intros Hz.
  rewrite !decide_True by lia. cbn. by rewrite length_insert.
Qed.

Lemma array_length_set_NaN a v : array_length (array_set a NaN v) = array_length a.
Proof. done. Qed.

Lemma array_length_new (n : nat) : array_length (array_new (T:=T) n) = Z.of_nat n.
Proof. unfold array_length, array_new. cbn. by rewrite length_replicate. Qed.

Lemma array_get_new (n : nat) (k : number) : array_get (array_new (T:=T) n) k = None.
Proof.
  destruct k as [z|]; [|done]. unfold array_get, array_new; cbn.
  destruct (decide (0 <= z)); [|done].
  destruct (replicate n None !! Z.to_nat z) eqn:E; [|done].
  by apply lookup_replicate in E as [-> _].
Qed.

(** ** The iterator *)

Lemma spread_from b (k : nat) : ∀ (fuel : nat) (index : Z),
  k = Z.to_nat (_size b - index) → (k < fuel)%nat →
  spread fuel b index
  = Some ((λ j : nat, get b (index + Z.of_nat j)) <$> seq 0 k).
Proof.
  induction k as [|k IH]; intros fuel index Hk Hfuel;
    (destruct fuel as [|fuel]; [lia|]); cbn [spread]; unfold next.
  - by rewrite decide_False by lia.
  - rewrite decide_True by lia.
    rewrite (IH fuel (index + 1)) by lia. cbn.
    rewrite Z.add_0_r. do 2 f_equal.
    rewrite <- fmap_S_seq, <- list_fmap_compose.
    apply list_fmap_ext. intros _ j _. cbn. f_equal. lia.
Qed.

Lemma traversal_contents b : traversal b = Some (contents b).
Proof.
  unfold traversal, contents.
  rewrite (spread_from b (Z.to_nat (_size b))) by lia.
  f_equal.
Qed.

(** Any larger number of calls to [next] gives the same sequence. *)
Lemma spread_enough b (fuel : nat) :
  (Z.to_nat (_size b) < fuel)%nat → spread fuel b 0 = traversal b.
Proof.
  intros Hfuel. unfold traversal.
  rewrite !(spread_from b (Z.to_nat (_size b))) by lia. done.
Qed.

Lemma length_contents b : length (contents b) = Z.to_nat (_size b).
Proof. unfold contents. by rewrite length_fmap, length_seq. Qed.

Lemma lookup_contents b (i : nat) :
  (i < Z.to_nat (_size b))%nat → contents b !! i = Some (get b (Z.of_nat i)).
Proof.
  intros Hi. unfold contents. rewrite list_lookup_fmap, lookup_seq_lt by done.
  done.
Qed.

(** ** The loop of [push] *)

Lemma push_loop_zero_capacity items : ∀ a (position : number) (sz i : Z),
  elems (push_loop a position sz 0 items i) = elems a.
Proof.
  induction items as [|x items IH]; intros a position sz i; cbn [push_loop]; [done|].
  rewrite rem_zero, IH. done.
Qed.

Section PushLoop.
Variables (cap p sz : Z).
Hypothesis cap_pos : 0 < cap.

Lemma push_index (i : Z) :
  0 <= p + sz + i →
  Number.rem (Number.add (Number.add (Num p) (Num sz)) (Num i)) (Num cap)
  = Num ((p + sz + i) mod cap).
Proof. intros Hi. cbn [Number.add]. by apply rem_nonneg. Qed.

Lemma push_loop_length items : ∀ a (i : Z),
  array_length a = cap → 0 <= p + sz + i →
  array_length (push_loop a (Num p) sz cap items i) = cap.
Proof.
  induction items as [|x items IH]; intros a i Ha Hi; cbn [push_loop]; [done|].
  rewrite push_index by done. apply IH; [|lia].
  rewrite array_length_set; [done|]. rewrite Ha. by apply Z.mod_pos_bound.
Qed.

(** A slot that no remaining write targets keeps its value. *)
Lemma push_loop_untouched items : ∀ a (i s : Z),
  array_length a = cap → 0 <= p + sz + i →
  (∀ m, 0 <= m < Z.of_nat (length items) → (p + sz + i + m) mod cap ≠ s) →
  array_get (push_loop a (Num p) sz cap items i) (Num s) = array_get a (Num s).
Proof.
  induction items as [|x items IH]; intros a i s Ha Hi Hs; cbn [push_loop]; [done|].
  cbn [length] in Hs. rewrite push_index by done.
  assert (0 <= (p + sz + i) mod cap < cap) by by apply Z.mod_pos_bound.
  rewrite IH.
  - apply array_get_set_ne; [lia|]. specialize (Hs 0). rewrite Z.add_0_r in Hs.
    apply Hs. lia.
  - rewrite array_length_set; lia.
  - lia.
  - intros m Hm. replace (p + sz + (i + 1) + m) with (p + sz + i + (m + 1)) by lia.
    apply Hs. lia.
Qed.

(** Each of the last [cap] items is found in the slot it was written to. *)
Lemma push_loop_written items : ∀ a (i : Z) (m : nat) (x : T),
  array_length a = cap → 0 <= p + sz + i →
  items !! m = Some x → Z.of_nat (length items) - Z.of_nat m <= cap →
  array_get (push_loop a (Num p) sz cap items i)
            (Num ((p + sz + i + Z.of_nat m) mod cap)) = Some x.
Proof.
  induction items as [|y items IH]; intros a i m x Ha Hi Hm Hlast; [done|].
  cbn [push_loop]. cbn [length] in Hlast. rewrite push_index by done.
  assert (0 <= (p + sz + i) mod cap < cap) by by apply Z.mod_pos_bound.
  destruct m as [|m]; cbn in Hm.
  - injection Hm as ->. rewrite Z.add_0_r.
    rewrite push_loop_untouched.
    + apply array_get_set_eq. lia.
    + rewrite array_length_set; lia.
    + lia.
    + intros k Hk. replace (p + sz + (i + 1) + k) with (p + sz + i + (k + 1)) by lia.
      apply mod_shift_ne. lia.
  - replace (p + sz + i + Z.of_nat (S m)) with (p + sz + (i + 1) + Z.of_nat m) by lia.
    apply IH; [|lia|done|lia]. rewrite array_length_set; lia.
Qed.

End PushLoop.

(** ** [get] on a buffer that satisfies the invariants *)

Lemma get_out_of_range b (index : Z) :
  index < - _size b ∨ index >= _size b → get b index = None.
Proof.
  intros Hi. unfold get.
  destruct (index <=? - _size b - 1) eqn:E1; [done|].
  destruct (index >=? _size b) eqn:E2; [done|]. lia.
Qed.

Lemma get_nonneg b (i : Z) :
  0 <= i < _size b →
  get b i = array_get (_buffer b)
              (Number.rem (Number.add (_position b) (Num i))
                          (Num (array_length (_buffer b)))).
Proof.
  intros Hi. unfold get.
  destruct (i <=? - _size b - 1) eqn:E1; [lia|].
  destruct (i >=? _size b) eqn:E2; [lia|]. cbn.
  destruct (i <? 0) eqn:E3; [lia|]. done.
Qed.

Lemma get_negative b (i : Z) : 0 <= i < _size b → get b (i - _size b) = get b i.
Proof.
  intros Hi. rewrite (get_nonneg b i) by done. unfold get.
  destruct (i - _size b <=? - _size b - 1) eqn:E1; [lia|].
  destruct (i - _size b >=? _size b) eqn:E2; [lia|]. cbn.
  destruct (i - _size b <? 0) eqn:E3; [|lia].
  by replace (_size b + (i - _size b)) with i by lia.
Qed.

Lemma get_slot b (p i : Z) :
  _position b = Num p → 0 <= p → 0 < capacity b → 0 <= i < _size b →
  get b i = array_get (_buffer b) (Num ((p + i) mod capacity b)).
Proof.
  intros Hp Hp0 Hcap Hi. rewrite get_nonneg by done. rewrite Hp. cbn [Number.add].
  by rewrite rem_nonneg by (unfold capacity in *; lia).
Qed.

(** ** [push] *)

Lemma capacity_push b items : invariants b → capacity (push b items) = capacity b.
Proof.
  intros [Hsz Hpos _]. unfold capacity, size in *. cbn.
  destruct (decide (array_length (_buffer b) = 0)) as [E|E].
  - rewrite E. unfold array_length. by rewrite push_loop_zero_capacity.
  - destruct Hpos as (p & Hp & Hp'); [unfold array_length in *; lia|].
    rewrite Hp. apply push_loop_length; unfold array_length in *; lia.
Qed.

Lemma size_push b items :
  size (push b items) = Z.min (size b + Z.of_nat (length items)) (capacity b).
Proof. done. Qed.

Lemma position_push b items (p : Z) :
  _position b = Num p → 0 <= p → 0 < capacity b →
  _position (push b items)
  = Num ((p + Z.max (_size b + Z.of_nat (length items) - capacity b) 0)
         mod capacity b).
Proof.
  intros Hp Hp0 Hcap. cbn. rewrite Hp. cbn [Number.add].
  apply rem_nonneg; unfold capacity in *; lia.
Qed.

(** What [get] finds after a [push]: logical index [j] of the result is
    index [overlap + j] of the old contents followed by the items. *)
Lemma get_push_old b items (j : Z) :
  invariants b → 0 <= j →
  Z.max (size b + Z.of_nat (length items) - capacity b) 0 + j < size b →
  get (push b items) j
  = get b (Z.max (size b + Z.of_nat (length items) - capacity b) 0 + j).
Proof.
  intros Hinv Hj Hold. pose proof (capacity_push b items Hinv) as Hcap.
  destruct Hinv as [Hsz Hpos _]. unfold size in *.
  set (d := Z.max (_size b + Z.of_nat (length items) - capacity b) 0) in *.
  destruct Hpos as (p & Hp & Hp'); [lia|].
  rewrite (get_slot (push b items) ((p + d) mod capacity b) j).
  - rewrite (get_slot b p (d + j)) by (done || lia).
    rewrite Hcap, Zplus_mod_idemp_l. cbn [_buffer push]. rewrite Hp.
    replace (p + d + j) with (p + (d + j)) by lia.
    unfold capacity in *.
    apply push_loop_untouched; [lia|done|lia|].
    intros m Hm.
    replace (p + _size b + 0 + m) with (p + (d + j) + (_size b + m - d - j)) by lia.
    apply mod_shift_ne. lia.
  - apply position_push; done || lia.
  - apply Z.mod_pos_bound. lia.
  - lia.
  - cbn [_size push]. fold (capacity b). lia.
Qed.

Lemma get_push_new b items (j : Z) (m : nat) (x : T) :
  invariants b → 0 <= j < size (push b items) →
  Z.max (size b + Z.of_nat (length items) - capacity b) 0 + j
  = size b + Z.of_nat m →
  items !! m = Some x →
  get (push b items) j = Some x.
Proof.
  intros Hinv Hj Hnew Hm. pose proof (capacity_push b items Hinv) as Hcap.
  rewrite size_push in Hj.
  destruct Hinv as [Hsz Hpos _]. unfold size in *.
  set (d := Z.max (_size b + Z.of_nat (length items) - capacity b) 0) in *.
  destruct Hpos as (p & Hp & Hp'); [lia|].
  rewrite (get_slot (push b items) ((p + d) mod capacity b) j).
  - rewrite Hcap, Zplus_mod_idemp_l. cbn [_buffer push]. rewrite Hp.
    replace (p + d + j) with (p + _size b + 0 + Z.of_nat m) by lia.
    unfold capacity in *. apply push_loop_written; [lia|done|lia|done|].
    apply lookup_lt_Some in Hm. lia.
  - apply position_push; done || lia.
  - apply Z.mod_pos_bound. lia.
  - lia.
  - cbn [_size push]. fold (capacity b). lia.
Qed.

Lemma contents_push b items :
  invariants b →
  contents (push b items)
  = lastn (Z.to_nat (capacity b)) (contents b ++ (Some <$> items)).
Proof.
  intros Hinv. pose proof (size_bounds b Hinv) as Hsz. unfold size in Hsz.
  unfold lastn.
  apply (list_eq_same_length _ _ (Z.to_nat (size (push b items)))).
  - rewrite length_drop, length_app, length_contents, length_fmap, size_push.
    unfold size. lia.
  - by rewrite length_contents.
  - intros i x y Hi Hx Hy.
    rewrite lookup_contents in Hx by done. injection Hx as <-.
    rewrite lookup_drop, length_app, length_contents, length_fmap in Hy.
    rewrite size_push in Hi. unfold size in Hi.
    set (k := (Z.to_nat (_size b) + length items - Z.to_nat (capacity b))%nat) in Hy.
    assert (Z.of_nat k = Z.max (size b + Z.of_nat (length items) - capacity b) 0)
      as Hk by (unfold size, k; lia).
    destruct (decide (k + i < Z.to_nat (_size b))%nat) as [Hold|Hnew].
    + rewrite lookup_app_l in Hy by (rewrite length_contents; lia).
      rewrite lookup_contents in Hy by done. injection Hy as <-.
      rewrite get_push_old; [|done|lia|unfold size in *; lia].
      f_equal. lia.
    + rewrite lookup_app_r in Hy by (rewrite length_contents; lia).
      rewrite length_contents, list_lookup_fmap in Hy.
      destruct (items !! (k + i - Z.to_nat (_size b))%nat) as [z|] eqn:Hz; [|done].
      injection Hy as <-.
      apply (get_push_new b items _ (k + i - Z.to_nat (_size b)) z);
        [done|rewrite size_push; unfold size in *; lia| |done].
      unfold size in *. lia.
Qed.

(** ** The invariants, operation by operation *)

Lemma invariants_from (iterable : list T) : invariants (from iterable).
Proof.
  split; unfold size, capacity, from; cbn [_size _buffer _position]; unfold array_length; [lia| |done].
  intros Hcap. exists 0. split; [done|lia].
Qed.

Lemma invariants_withCapacity (n : nat) : invariants (withCapacity (T:=T) n).
Proof.
  split; unfold size, capacity; cbn; rewrite ?array_length_new; [lia| |done].
  intros Hcap. exists 0. split; [done|lia].
Qed.

Lemma invariants_push b items : invariants b → invariants (push b items).
Proof.
  intros Hinv. pose proof (capacity_push b items Hinv) as Hcap.
  destruct (Hinv) as [Hsz Hpos _].
  split; rewrite Hcap, ?size_push.
  - lia.
  - intros Hc. destruct (Hpos Hc) as (p & Hp & Hp').
    rewrite (position_push b items p) by (done || lia).
    eexists. split; [done|]. apply Z.mod_pos_bound. lia.
  - lia.
Qed.

Lemma invariants_pop b : invariants b → invariants (pop b).2.
Proof.
  intros Hinv. unfold pop. destruct (decide (_size b = 0)); [done|].
  destruct Hinv as [Hsz Hpos Hz]. unfold size, capacity in *.
  split; unfold size, capacity; cbn; [lia|done|lia].
Qed.

Lemma invariants_shift b : invariants b → invariants (shift b).2.
Proof.
  intros Hinv. unfold shift. destruct (decide (_size b = 0)); [done|].
  destruct Hinv as [Hsz Hpos Hz]. unfold size, capacity in *.
  split; unfold size, capacity; cbn; [lia| |lia].
  intros Hc. destruct (Hpos Hc) as (p & -> & Hp). cbn [Number.add].
  rewrite rem_nonneg by lia. eexists. split; [done|].
  apply Z.mod_pos_bound. lia.
Qed.

(** What [set] does when it returns. *)
Lemma set_Return b (index : Z) (item : T) (b' : t T) :
  invariants b → set b index item = Return b' →
  - _size b < index < _size b ∧
  ∃ p, _position b = Num p ∧ 0 <= p < capacity b ∧
    b' = Build (array_set (_buffer b)
                  (Num ((p + logical_index b index) mod capacity b)) (Some item))
               (_size b) (_position b).
Proof.
  intros [Hsz Hpos _] Hset. unfold set in Hset. unfold size in *.
  destruct (index <=? - _size b) eqn:E1; [done|].
  destruct (index >=? _size b) eqn:E2; [done|]. cbn in Hset.
  split; [lia|]. destruct Hpos as (p & Hp & Hp'); [lia|].
  exists p. split; [done|]. split; [done|].
  injection Hset as <-. rewrite Hp. cbn [Number.add]. unfold capacity in *.
  fold (logical_index b index).
  rewrite rem_nonneg; [done| |lia].
  unfold logical_index. destruct (index <? 0) eqn:E3; lia.
Qed.

Lemma logical_index_range b (index : Z) :
  - _size b <= index < _size b → 0 <= logical_index b index < _size b.
Proof. intros Hi. unfold logical_index. destruct (index <? 0) eqn:E; lia. Qed.

Lemma invariants_set b (index : Z) (item : T) (b' : t T) :
  invariants b → set b index item = Return b' → invariants b'.
Proof.
  intros Hinv Hset.
  destruct (set_Return _ _ _ _ Hinv Hset) as (Hi & p & Hp & Hp' & ->).
  destruct Hinv as [Hsz Hpos Hz]. unfold size, capacity in *.
  assert (array_length
            (array_set (_buffer b)
               (Num ((p + logical_index b index) mod array_length (_buffer b)))
               (Some item)) = array_length (_buffer b)) as Hlen.
  { apply array_length_set. apply Z.mod_pos_bound. lia. }
  split; unfold size, capacity; cbn [_size _buffer _position]; rewrite Hlen; done.
Qed.

Lemma invariants_clear b : invariants (clear b).
Proof.
  split; unfold size, capacity, clear, array_length;
    cbn [_size _buffer _position elems array_truncate length]; [lia|lia|done].
Qed.

Lemma resize_loop_length b (n : nat) : ∀ a (i : Z),
  0 <= i → i + Z.of_nat n <= array_length a →
  array_length (resize_loop b a i n) = array_length a.
Proof.
  induction n as [|n IH]; intros a i Hi Hn; cbn [resize_loop]; [done|].
  rewrite IH; rewrite ?array_length_set; lia.
Qed.

Lemma resize_loop_get b (n : nat) : ∀ a (i j : Z),
  0 <= i → i + Z.of_nat n <= array_length a →
  array_get (resize_loop b a i n) (Num j)
  = if decide (i <= j < i + Z.of_nat n) then get b j else array_get a (Num j).
Proof.
  induction n as [|n IH]; intros a i j Hi Hn; cbn [resize_loop].
  - by rewrite decide_False by lia.
  - rewrite IH; rewrite ?array_length_set; try lia.
    destruct (decide (i = j)) as [->|Hne].
    + rewrite decide_False, decide_True by lia. apply array_get_set_eq. lia.
    + rewrite array_get_set_ne by lia.
      destruct (decide (i + 1 <= j < i + 1 + Z.of_nat n));
        [by rewrite decide_True by lia|by rewrite decide_False by lia].
Qed.

Lemma capacity_resize b (n : nat) :
  0 <= _size b → capacity (resize b n) = Z.of_nat n.
Proof.
  intros Hsz. unfold capacity. cbn.
  rewrite resize_loop_length; rewrite ?array_length_new; lia.
Qed.

Lemma invariants_resize b (n : nat) : invariants b → invariants (resize b n).
Proof.
  intros [Hsz _ _]. unfold size in Hsz.
  split; rewrite capacity_resize by lia; unfold size; cbn; [lia| |lia].
  intros Hn. exists 0. split; [done|lia].
Qed.

Lemma invariants_clone b : invariants b → invariants (clone b).
Proof. intros [Hsz Hpos Hz]. by split. Qed.

Lemma invariants_run (c : call T) b (b' : t T) :
  invariants b → run c b = Return b' → invariants b'.
Proof.
  intros Hinv Hrun. destruct c; cbn in Hrun;
    try (injection Hrun as <-);
    eauto using invariants_push, invariants_pop, invariants_shift,
      invariants_set, invariants_clear, invariants_resize, invariants_clone.
Qed.

Lemma reachable_invariants b : reachable b → invariants b.
Proof.
  induction 1 as [items|n|c b b' _ IH Hrun];
    eauto using invariants_from, invariants_withCapacity, invariants_run.
Qed.

(** ** What [get] returns after each mutation *)

Lemma get_logical b (j : Z) :
  - _size b <= j < _size b → get b j = get b (logical_index b j).
Proof.
  intros Hj. unfold logical_index. destruct (j <? 0) eqn:E; [|done].
  rewrite <- (get_negative b (_size b + j)) by lia. f_equal. lia.
Qed.

Lemma get_pop b (i : Z) :
  0 <= i < _size b - 1 → get (pop b).2 i = get b i.
Proof.
  intros Hi. unfold pop. destruct (decide (_size b = 0)); [done|]. cbn [snd].
  rewrite !get_nonneg; cbn [_size]; done || lia.
Qed.

Lemma get_shift b (i : Z) :
  invariants b → 0 <= i < _size b - 1 → get (shift b).2 i = get b (i + 1).
Proof.
  intros [Hsz Hpos _] Hi. unfold size, capacity in *.
  destruct Hpos as (p & Hp & Hp'); [lia|].
  unfold shift. destruct (decide (_size b = 0)); [lia|]. cbn [snd].
  rewrite !get_nonneg; cbn [_size _buffer _position]; [|lia..].
  assert (0 <= (p + 1) mod array_length (_buffer b))
    by (apply Z.mod_pos_bound; lia).
  rewrite Hp. cbn [Number.add]. rewrite (rem_nonneg (p + 1)) by lia.
  cbn [Number.add]. rewrite !rem_nonneg by lia.
  rewrite Zplus_mod_idemp_l. do 3 f_equal. lia.
Qed.

Lemma get_set b (index : Z) (item : T) (b' : t T) (j : Z) :
  invariants b → set b index item = Return b' → - _size b <= j < _size b →
  get b' j
  = if decide (logical_index b j = logical_index b index) then Some item
    else get b j.
Proof.
  intros Hinv Hset Hj.
  destruct (set_Return _ _ _ _ Hinv Hset) as (Hi & p & Hp & Hp' & ->).
  pose proof (logical_index_range b j Hj) as Hlj.
  pose proof (logical_index_range b index ltac:(lia)) as Hli.
  pose proof (size_bounds b Hinv) as Hsz. unfold size in Hsz.
  match goal with |- get ?x _ = _ => set (b' := x) end.
  assert (get b' j = get b' (logical_index b j)) as -> by (by apply (get_logical b')).
  rewrite (get_logical b j) by done.
  set (cap := capacity b) in *.
  assert (0 <= (p + logical_index b index) mod cap < cap) as Hslot
    by (apply Z.mod_pos_bound; lia).
  assert (capacity b' = cap) as Hcap'.
  { unfold capacity, b'. cbn [_buffer]. apply array_length_set. unfold cap, capacity in *; lia. }
  rewrite (get_slot b' p) by (done || lia).
  rewrite (get_slot b p) by (done || lia). rewrite Hcap'. fold cap.
  unfold b'. cbn [_buffer].
  destruct (decide (logical_index b j = logical_index b index)) as [->|Hne].
  - apply array_get_set_eq. unfold cap, capacity in *; lia.
  - apply array_get_set_ne; [unfold cap, capacity in *; lia|].
    intros Heq. apply Hne.
    destruct (mod_eq_multiple _ _ cap ltac:(lia) Heq) as [k Hk].
    destruct (decide (k = 0)) as [->|]; [lia|].
    destruct (decide (k <= 0)).
    + assert (k * cap <= (-1) * cap) by (apply Z.mul_le_mono_nonneg_r; lia). lia.
    + assert (1 * cap <= k * cap) by (apply Z.mul_le_mono_nonneg_r; lia). lia.
Qed.

Lemma get_resize b (n : nat) (i : Z) :
  0 <= i < Z.min (_size b) (Z.of_nat n) → get (resize b n) i = get b i.
Proof.
  intros Hi.
  rewrite (get_slot (resize b n) 0 i); [|done|lia|rewrite capacity_resize; lia|cbn; lia].
  rewrite capacity_resize by lia. rewrite Z.add_0_l, Z.mod_small by lia. cbn [_buffer resize].
  rewrite resize_loop_get; [|lia|rewrite array_length_new; lia].
  by rewrite decide_True by lia.
Qed.

Lemma get_clone b (i : Z) :
  invariants b → 0 <= i < _size b → get (clone b) i = get b i.
Proof.
  intros [Hsz Hpos _] Hi. unfold size in *. destruct Hpos as (p & Hp & Hp'); [lia|].
  assert (capacity (clone b) = capacity b) as Hcap by done.
  rewrite (get_slot (clone b) p), (get_slot b p) by (done || cbn [_size clone]; lia).
  rewrite Hcap. unfold array_get.
  destruct (decide (0 <= (p + i) mod capacity b)) as [_|Hneg]; [done|].
  destruct Hneg. apply Z.mod_pos_bound. lia.
Qed.

Lemma get_from (iterable : list T) (i : nat) (x : T) :
  iterable !! i = Some x → get (from iterable) (Z.of_nat i) = Some x.
Proof.
  intros Hx. pose proof (lookup_lt_Some _ _ _ Hx) as Hlt.
  assert (capacity (from iterable) = Z.of_nat (length iterable)) as Hcap
    by (unfold capacity, array_length; cbn; by rewrite length_fmap).
  rewrite (get_slot _ 0); [|done|lia|lia|cbn; unfold array_length; cbn; rewrite length_fmap; lia].
  rewrite Hcap, Z.add_0_l, Z.mod_small by lia.
  unfold array_get. rewrite decide_True by lia. cbn.
  by rewrite Nat2Z.id, list_lookup_fmap, Hx.
Qed.

(** ** Occupancy, operation by operation *)

Lemma occupied_contents b : occupied b ↔ Forall is_Some (contents b).
Proof.
  rewrite Forall_lookup. split.
  - intros Hocc i x Hx. pose proof (lookup_lt_Some _ _ _ Hx) as Hlt.
    rewrite length_contents in Hlt. rewrite lookup_contents in Hx by done.
    injection Hx as <-. apply Hocc. lia.
  - intros Hall i Hi. apply (Hall (Z.to_nat i)).
    rewrite lookup_contents by lia. by rewrite Z2Nat.id by lia.
Qed.

Lemma wf_from (iterable : list T) : wf (from iterable).
Proof.
  split; [apply invariants_from|]. intros i Hi. cbn in Hi.
  unfold array_length in Hi. cbn in Hi. rewrite length_fmap in Hi.
  destruct (lookup_lt_is_Some_2 iterable (Z.to_nat i) ltac:(lia)) as [x Hx].
  exists x. rewrite <- (Z2Nat.id i) by lia. by apply get_from.
Qed.

Lemma wf_withCapacity (n : nat) : wf (withCapacity (T:=T) n).
Proof. split; [apply invariants_withCapacity|]. intros i Hi. cbn in Hi. lia. Qed.

Lemma wf_push b items : wf b → wf (push b items).
Proof.
  intros [Hinv Hocc]. split; [by apply invariants_push|].
  apply occupied_contents. rewrite contents_push by done.
  apply Forall_drop, Forall_app. split; [by apply occupied_contents|].
  apply Forall_fmap, Forall_true. intros x. by eexists.
Qed.

Lemma wf_pop b : wf b → wf (pop b).2.
Proof.
  intros [Hinv Hocc]. split; [by apply invariants_pop|].
  intros i Hi. destruct (decide (_size b = 0)) as [E|E].
  - unfold pop in *. rewrite decide_True in * by done. apply Hocc. by cbn in Hi.
  - assert (_size (pop b).2 = _size b - 1) as Hs
      by (unfold pop; by rewrite decide_False by done).
    rewrite get_pop by lia. apply Hocc. lia.
Qed.

Lemma wf_shift b : wf b → wf (shift b).2.
Proof.
  intros [Hinv Hocc]. split; [by apply invariants_shift|].
  intros i Hi. destruct (decide (_size b = 0)) as [E|E].
  - unfold shift in *. rewrite decide_True in * by done. apply Hocc. by cbn in Hi.
  - assert (_size (shift b).2 = _size b - 1) as Hs
      by (unfold shift; by rewrite decide_False by done).
    rewrite get_shift by (done || lia). apply Hocc. lia.
Qed.

Lemma wf_set b (index : Z) (item : T) (b' : t T) :
  wf b → set b index item = Return b' → wf b'.
Proof.
  intros [Hinv Hocc] Hset. split; [by eapply invariants_set|].
  assert (_size b' = _size b) as Hs
    by (destruct (set_Return _ _ _ _ Hinv Hset) as (_ & p & _ & _ & ->); done).
  intros i Hi. rewrite (get_set b index item b' i Hinv Hset) by lia.
  case_decide; [by eexists|]. apply Hocc. lia.
Qed.

Lemma wf_clear b : wf (clear b).
Proof. split; [apply invariants_clear|]. intros i Hi. cbn in Hi. lia. Qed.

Lemma wf_resize b (n : nat) : wf b → wf (resize b n).
Proof.
  intros [Hinv Hocc]. split; [by apply invariants_resize|].
  intros i Hi. cbn [_size resize] in Hi. rewrite get_resize by done.
  apply Hocc. lia.
Qed.

Lemma wf_clone b : wf b → wf (clone b).
Proof.
  intros [Hinv Hocc]. split; [by apply invariants_clone|].
  intros i Hi. cbn [_size clone] in Hi. rewrite get_clone by done. by apply Hocc.
Qed.

Lemma wf_run (c : call T) b (b' : t T) : wf b → run c b = Return b' → wf b'.
Proof.
  intros Hwf Hrun. destruct c; cbn in Hrun;
    try (injection Hrun as <-);
    eauto using wf_push, wf_pop, wf_shift, wf_set, wf_clear, wf_resize, wf_clone.
Qed.

Lemma reachable_wf b : reachable b → wf b.
Proof.
  induction 1 as [items|n|c b b' _ IH Hrun];
    eauto using wf_from, wf_withCapacity, wf_run.
Qed.

(** ** [pop] *)

Lemma pop_empty b : _size b = 0 → pop b = (None, b).
Proof. intros Hs. unfold pop. by rewrite decide_True by done. Qed.

(** When the last element's slot does not wrap, [pop] returns it. *)
Lemma pop_not_wrapped b (p : Z) :
  invariants b → _position b = Num p → 0 < _size b →
  p + _size b - 1 < capacity b →
  pop b = (get b (_size b - 1), Build (_buffer b) (_size b - 1) (_position b)).
Proof.
  intros [Hsz Hpos _] Hp Hs Hwrap. unfold size in *.
  destruct Hpos as (p' & Hp1 & Hp'); [lia|].
  assert (p' = p) as -> by congruence.
  unfold pop. rewrite decide_False by lia. f_equal.
  rewrite (get_slot b p) by (done || lia). rewrite Hp. cbn [Number.add Number.sub].
  rewrite Z.mod_small by lia. do 2 f_equal. lia.
Qed.

(** C1. On the buffer built by [withCapacity(3)] and [push(1, 2, 3, 4)] the
    newest element, 4, sits in slot 0 while [position] is 1 and [size] is 3:
    the last logical element wraps.  [get(size - 1)] finds it, but [pop]
    reads slot [position + size - 1 = 3], outside the array, and returns
    [undefined]; it still decrements [size] and keeps [position]. *)
Theorem pop_wrapped_returns_undefined :
  let b := push (withCapacity 3) [1; 2; 3; 4] in
  reachable b ∧
  size b = 3 ∧ capacity b = 3 ∧ _position b = Num 1 ∧
  get b (size b - 1) = Some 4 ∧
  (pop b).1 = None ∧
  size (pop b).2 = 2 ∧ _position (pop b).2 = Num 1.
Proof.
  cbv zeta. split; [|by vm_compute].
  apply (reachable_run (Push [1; 2; 3; 4]) (withCapacity 3)); [constructor|done].
Qed.

(** ** [clear] *)

(** C2. On [from([1, 2, 3])], whose capacity is 3, [clear] truncates the
    backing array: [size] and [position] are 0 and the traversal is empty,
    but [capacity()] is 0 afterwards instead of 3, and a later [push(4)]
    is discarded. *)
Theorem clear_changes_capacity :
  let b := from [1; 2; 3] in
  capacity b = 3 ∧
  size (clear b) = 0 ∧ _position (clear b) = Num 0 ∧
  traversal (clear b) = Some [] ∧
  capacity (clear b) = 0 ∧ capacity (clear b) ≠ capacity b ∧
  size (push (clear b) [4]) = 0 ∧ traversal (push (clear b) [4]) = Some [].
Proof.
  cbv zeta. repeat split; try done;
    intros Hcap; vm_compute in Hcap; discriminate.
Qed.

(** What [clear] leaves on any buffer: size 0, position 0, an array of
    length 0 and an empty traversal. *)
Lemma clear_truncates b :
  size (clear b) = 0 ∧ _position (clear b) = Num 0 ∧
  capacity (clear b) = 0 ∧ traversal (clear b) = Some [].
Proof. done. Qed.

(** ** [set] *)

(** The indices [set] rejects. *)
Lemma set_throws b (index : Z) (item : T) :
  set b index item = ThrowRangeError ↔ index <= - _size b ∨ index >= _size b.
Proof.
  unfold set.
  destruct (index <=? - _size b) eqn:E1; cbn; [split; [lia|done]|].
  destruct (index >=? _size b) eqn:E2; cbn; [split; [lia|done]|].
  split; [done|lia].
Qed.

(** C3. On [from([1, 2, 3])], whose size is 3, [set(-3, 9)] throws the
    range error although -3 = -size is the alias of logical index 0, which
    [get(-3)] reads. *)
Theorem set_rejects_minus_size :
  let b := from [1; 2; 3] in
  size b = 3 ∧ ¬ (-3 < - size b ∨ -3 >= size b) ∧
  get b (-3) = Some 1 ∧ get b 0 = Some 1 ∧
  set b (-3) 9 = ThrowRangeError.
Proof. cbv zeta. split; [done|]. split; [vm_compute; intros [?|?]; done|done]. Qed.

(** C7. The round trip [set(i, v)] then [get(i)] cannot be made at
    [i = -size], an index of the range [-size, size - 1]: on
    [from([1, 2, 3])], [set(-3, 9)] throws and returns no buffer to read
    9 from. *)
Theorem set_get_no_roundtrip_at_minus_size :
  let b := from [1; 2; 3] in
  - size b <= -3 <= size b - 1 ∧
  set b (-3) 9 = ThrowRangeError ∧
  ¬ (∃ r : t Z, set b (-3) 9 = Return r ∧ get r (-3) = Some 9).
Proof.
  cbv zeta. split; [by vm_compute|]. split; [done|].
  intros (r & Hset & _). discriminate.
Qed.

(** On the indices [set] accepts, the round trip holds and the other
    logical positions keep their values. *)
Lemma set_get_roundtrip b (i : Z) (item : T) (b' : t T) :
  invariants b → set b i item = Return b' →
  get b' i = Some item ∧
  ∀ j, - _size b <= j < _size b → logical_index b j ≠ logical_index b i →
       get b' j = get b j.
Proof.
  intros Hinv Hset.
  destruct (set_Return _ _ _ _ Hinv Hset) as (Hi & _). split.
  - rewrite (get_set b i item b' i Hinv Hset) by lia. by rewrite decide_True.
  - intros j Hj Hne. rewrite (get_set b i item b' j Hinv Hset) by lia.
    by rewrite decide_False.
Qed.

(** ** [push] on a buffer of capacity 0 *)

Lemma push_zero_capacity b items :
  capacity b = 0 →
  _position (push b items) = NaN ∧
  size (push b items) = Z.min (size b + Z.of_nat (length items)) 0 ∧
  capacity (push b items) = 0.
Proof.
  intros Hcap. unfold capacity, size in *. cbn. rewrite Hcap.
  split; [apply rem_zero|]. split; [done|].
  unfold array_length in *. by rewrite push_loop_zero_capacity.
Qed.

(** C4. On [withCapacity(0)], [push()] and [push(7)] evaluate [% 0]: they
    leave [position] at [NaN] instead of 0, and [push(7)] stores 7 under
    the property ["NaN"] of the backing array.  [size] and [capacity()]
    stay 0. *)
Theorem push_zero_capacity_moves_position :
  let b := withCapacity 0 in
  capacity b = 0 ∧ size b = 0 ∧ _position b = Num 0 ∧
  _position (push b []) = NaN ∧ push b [] ≠ b ∧
  _position (push b [7]) = NaN ∧
  props (_buffer (push b [7])) = [(NaN, Some 7)] ∧
  size (push b [7]) = 0 ∧ capacity (push b [7]) = 0.
Proof. cbv zeta. repeat split; try done. Qed.

(** ** [push] in general *)

Lemma push_keeps_newest_aux b items :
  invariants b →
  size (push b items) = Z.min (size b + Z.of_nat (length items)) (capacity b) ∧
  traversal (push b items)
  = Some (lastn (Z.to_nat (capacity b)) (contents b ++ (Some <$> items))).
Proof.
  intros Hinv. split; [apply size_push|].
  by rewrite traversal_contents, contents_push.
Qed.

(** C5. On a buffer that satisfies the invariants and whose traversal is
    [old], [push(items)] leaves [size = min(size + |items|, capacity)] and
    a traversal equal to the last [capacity] elements of [old] followed by
    [items]: the oldest elements are the ones dropped. *)
Theorem push_keeps_newest b items (old : list (option T)) :
  invariants b → traversal b = Some old →
  size (push b items) = Z.min (size b + Z.of_nat (length items)) (capacity b) ∧
  traversal (push b items)
  = Some (lastn (Z.to_nat (capacity b)) (old ++ (Some <$> items))).
Proof.
  intros Hinv Hold. rewrite traversal_contents in Hold. injection Hold as <-.
  split; [apply size_push|].
  by rewrite traversal_contents, contents_push.
Qed.

(** ** [resize] *)

Lemma contents_resize b (n : nat) :
  contents (resize b n) = take (Z.to_nat (Z.min (_size b) (Z.of_nat n))) (contents b).
Proof.
  unfold contents at 2. rewrite <- fmap_take, take_seq.
  unfold contents. cbn [_size resize].
  replace (Z.to_nat (Z.min (_size b) (Z.of_nat n)) `min` Z.to_nat (_size b))%nat
    with (Z.to_nat (Z.min (_size b) (Z.of_nat n))) by lia.
  apply list_fmap_ext. intros i j Hj.
  apply lookup_seq in Hj as [-> Hlt]. apply get_resize. lia.
Qed.

(** C6. On a buffer that satisfies the invariants and whose traversal is
    [s], [resize(newCapacity)] gives capacity [newCapacity], size
    [min(|s|, newCapacity)], position 0 and the first
    [min(|s|, newCapacity)] elements of [s] as traversal: the oldest
    elements are the ones kept. *)
Theorem resize_keeps_oldest b (newCapacity : nat) (s : list (option T)) :
  invariants b → traversal b = Some s →
  capacity (resize b newCapacity) = Z.of_nat newCapacity ∧
  size (resize b newCapacity) = Z.of_nat (length s `min` newCapacity) ∧
  _position (resize b newCapacity) = Num 0 ∧
  traversal (resize b newCapacity) = Some (take (length s `min` newCapacity) s).
Proof.
  intros Hinv Hs. rewrite traversal_contents in Hs. injection Hs as <-.
  pose proof (size_bounds b Hinv) as Hsz. unfold size in Hsz.
  rewrite length_contents.
  split; [apply capacity_resize; lia|]. split; [unfold size; cbn; lia|].
  split; [done|].
  rewrite traversal_contents, contents_resize. do 2 f_equal. lia.
Qed.

(** ** [get] *)

(** C8. On every reachable buffer, [get(i) = get(i - size)] for
    [0 <= i <= size - 1], and [get(index)] is [undefined] exactly when
    [index < -size] or [index >= size]. *)
Theorem get_negative_alias b :
  reachable b →
  (∀ i, 0 <= i <= size b - 1 → get b i = get b (i - size b)) ∧
  (∀ index, get b index = None ↔ index < - size b ∨ index >= size b).
Proof.
  intros [Hinv Hocc]%reachable_wf. unfold size. split.
  - intros i Hi. symmetry. apply get_negative. lia.
  - intros index. split; [|apply get_out_of_range].
    intros Hnone.
    destruct (decide (index < - _size b ∨ index >= _size b)) as [|Hin]; [done|].
    rewrite get_logical in Hnone by lia.
    destruct (Hocc (logical_index b index)) as [x Hx];
      [apply logical_index_range; lia|congruence].
Qed.

(** ** The invariants *)

(** C9. The buffers built by the two factories satisfy the invariants
    [0 <= size <= capacity], [0 <= position < capacity] when
    [capacity > 0], and [size = 0] when [capacity = 0]; every call that
    returns (push, pop, shift, set, get, clear, resize, clone, traversal)
    leads from a buffer that satisfies them to one that does; so every
    reachable buffer satisfies them. *)
Theorem invariants_preserved b (c : call T) (b' : t T) :
  (∀ iterable : list T, invariants (from iterable)) ∧
  (∀ capacity : nat, invariants (withCapacity (T:=T) capacity)) ∧
  (invariants b → run c b = Return b' → invariants b') ∧
  (reachable b → invariants b).
Proof.
  split; [apply invariants_from|]. split; [apply invariants_withCapacity|].
  split; [apply invariants_run|apply reachable_invariants].
Qed.

(** ** Capacity 0 *)

Lemma get_zero_size b (index : Z) : _size b = 0 → get b index = None.
Proof. intros Hs. apply get_out_of_range. lia. Qed.

(** C10. [clear] leaves capacity 0.  On a buffer of capacity 0 that
    satisfies the invariants, [push] leaves size 0, capacity 0, no array
    element and an empty traversal; [pop], [shift] and [get] return
    [undefined] and change nothing; a call that leaves a buffer of another
    capacity is [resize(newCapacity)] with [newCapacity > 0], and after it
    a [push] is kept. *)
Theorem zero_capacity_absorbing b :
  capacity (clear b) = 0 ∧
  (invariants b → capacity b = 0 →
   (∀ items, size (push b items) = 0 ∧ capacity (push b items) = 0 ∧
             elems (_buffer (push b items)) = [] ∧
             traversal (push b items) = Some []) ∧
   pop b = (None, b) ∧ shift b = (None, b) ∧
   (∀ index, get b index = None) ∧
   (∀ (c : call T) (b' : t T), run c b = Return b' →
      (size b' = 0 ∧ capacity b' = 0) ∨
      (∃ newCapacity, c = Resize newCapacity ∧ (0 < newCapacity)%nat ∧
                      capacity b' = Z.of_nat newCapacity)) ∧
   (∀ (newCapacity : nat) (item : T), (0 < newCapacity)%nat →
      traversal (push (resize b newCapacity) [item]) = Some [Some item])).
Proof.
  split; [done|]. intros Hinv Hcap.
  pose proof (zero_capacity b Hinv Hcap) as Hsz. unfold size in Hsz.
  assert (∀ items, size (push b items) = 0 ∧ capacity (push b items) = 0)
    as Hpush.
  { intros items. destruct (push_zero_capacity b items Hcap) as (_ & Hs & Hc).
    split; [|done]. rewrite Hs. unfold size. lia. }
  split; [|split; [|split; [|split; [|split]]]].
  - intros items. destruct (Hpush items) as [Hs Hc]. split; [done|]. split; [done|].
    split.
    + unfold capacity, array_length in Hc. by destruct (elems _).
    + rewrite traversal_contents. unfold contents. unfold size in Hs. by rewrite Hs.
  - by apply pop_empty.
  - unfold shift. by rewrite decide_True by done.
  - intros index. by apply get_zero_size.
  - intros c b' Hrun. destruct c as [items| | |index item|index| |n| |]; cbn in Hrun.
    + injection Hrun as <-. left. apply Hpush.
    + injection Hrun as <-. left. rewrite pop_empty by done. done.
    + injection Hrun as <-. left. unfold shift. rewrite decide_True by done. done.
    + apply (set_Return _ _ _ _ Hinv) in Hrun as (Hi & _). lia.
    + injection Hrun as <-. by left.
    + injection Hrun as <-. by left.
    + injection Hrun as <-. destruct n as [|n].
      * left. rewrite capacity_resize by lia. unfold size. cbn. lia.
      * right. exists (S n). split; [done|]. split; [lia|].
        apply capacity_resize. lia.
    + injection Hrun as <-. by left.
    + injection Hrun as <-. by left.
  - intros n item Hn.
    pose proof (invariants_resize b n Hinv) as Hinv'.
    destruct (push_keeps_newest_aux (resize b n) [item] Hinv') as [_ ->].
    rewrite contents_resize, Hsz. f_equal.
    rewrite capacity_resize by lia. unfold lastn.
    replace (Z.to_nat (0 `min` Z.of_nat n)) with 0%nat by lia.
    rewrite take_0. cbn [app length fmap list_fmap].
    by replace (1 - Z.to_nat (Z.of_nat n))%nat with 0%nat by lia.
Qed.

(** * Further properties of the methods *)

(** ** The factories and the empty buffer *)

Lemma contents_from (iterable : list T) : contents (from iterable) = Some <$> iterable.
Proof.
  apply (list_eq_same_length _ _ (length iterable)).
  - by rewrite length_fmap.
  - rewrite length_contents. cbn. unfold array_length. cbn.
    rewrite length_fmap. lia.
  - intros i x y Hi Hx Hy.
    rewrite lookup_contents in Hx
      by (cbn; unfold array_length; cbn; rewrite length_fmap; lia).
    injection Hx as <-. rewrite list_lookup_fmap in Hy.
    destruct (iterable !! i) as [z|] eqn:Hz; [|done]. injection Hy as <-.
    by apply get_from.
Qed.

(** X1. [from(iterable)] has the length of [iterable] as capacity and as
    size and is traversed as [iterable]; [withCapacity(n)] has capacity
    [n], size 0 and an empty traversal. *)
Theorem factories_spec (iterable : list T) (n : nat) :
  capacity (from iterable) = Z.of_nat (length iterable) ∧
  size (from iterable) = Z.of_nat (length iterable) ∧
  traversal (from iterable) = Some (Some <$> iterable) ∧
  capacity (withCapacity (T:=T) n) = Z.of_nat n ∧
  size (withCapacity (T:=T) n) = 0 ∧
  traversal (withCapacity (T:=T) n) = Some [].
Proof.
  assert (capacity (from iterable) = Z.of_nat (length iterable)) as Hcap
    by (unfold capacity, array_length; cbn; by rewrite length_fmap).
  split; [done|]. split; [done|].
  split; [by rewrite traversal_contents, contents_from|].
  split; [apply array_length_new|done].
Qed.

(** X2. On a buffer of size 0, [pop] and [shift] return [undefined] and
    leave the buffer as it is, [get] returns [undefined] at every index,
    [set] throws at every index, and the traversal is empty. *)
Theorem empty_buffer b :
  _size b = 0 →
  pop b = (None, b) ∧ shift b = (None, b) ∧
  (∀ index, get b index = None) ∧
  (∀ index item, set b index item = ThrowRangeError) ∧
  traversal b = Some [].
Proof.
  intros Hs. split; [by apply pop_empty|].
  split; [unfold shift; by rewrite decide_True by done|].
  split; [intros index; by apply get_zero_size|].
  split; [intros index item; apply set_throws; lia|].
  rewrite traversal_contents. unfold contents. by rewrite Hs.
Qed.

(** ** [shift] *)

Lemma contents_shift b :
  invariants b → _size b ≠ 0 → contents (shift b).2 = drop 1 (contents b).
Proof.
  intros Hinv Hs. pose proof (size_bounds b Hinv) as Hsz. unfold size in Hsz.
  assert (_size (shift b).2 = _size b - 1) as Hs'
    by (unfold shift; by rewrite decide_False by done).
  apply (list_eq_same_length _ _ (Z.to_nat (_size b - 1))).
  - rewrite length_drop, length_contents. lia.
  - rewrite length_contents, Hs'. done.
  - intros i x y Hi Hx Hy.
    rewrite lookup_contents in Hx by (rewrite Hs'; lia). injection Hx as <-.
    rewrite lookup_drop, lookup_contents in Hy by lia. injection Hy as <-.
    rewrite get_shift by (done || lia). f_equal. lia.
Qed.

(** X3. On a buffer that satisfies the invariants and is traversed as
    [x :: rest], [shift] returns [x] and leaves a buffer traversed as
    [rest], of size one less and of the same capacity. *)
Theorem shift_spec b (x : option T) (rest : list (option T)) :
  invariants b → traversal b = Some (x :: rest) →
  (shift b).1 = x ∧ traversal (shift b).2 = Some rest ∧
  size (shift b).2 = size b - 1 ∧ capacity (shift b).2 = capacity b.
Proof.
  intros Hinv Hold. rewrite traversal_contents in Hold. injection Hold as Hold.
  pose proof (size_bounds b Hinv) as Hsz. unfold size in Hsz.
  assert (0 < _size b) as Hpos.
  { pose proof (length_contents b) as Hlen. rewrite Hold in Hlen. cbn in Hlen. lia. }
  assert (contents b !! 0%nat = Some (get b 0)) as H0 by (apply lookup_contents; lia).
  rewrite Hold in H0. injection H0 as ->.
  rewrite traversal_contents, contents_shift, Hold by (done || lia).
  destruct (position_bounds b Hinv ltac:(lia)) as (p & Hp & Hp').
  unfold shift, size, capacity. rewrite decide_False by lia. cbn [fst snd _size _buffer].
  split; [|done]. rewrite (get_slot b p 0) by (done || lia).
  rewrite Hp, Z.add_0_r, Z.mod_small by lia. done.
Qed.

(** ** [pop] *)

Lemma contents_pop b :
  _size b ≠ 0 → contents (pop b).2 = take (Z.to_nat (_size b - 1)) (contents b).
Proof.
  intros Hs.
  assert (_size (pop b).2 = _size b - 1) as Hs'
    by (unfold pop; by rewrite decide_False by done).
  unfold contents at 2. rewrite <- fmap_take, take_seq.
  unfold contents. rewrite Hs'.
  replace (Z.to_nat (_size b - 1) `min` Z.to_nat (_size b))%nat
    with (Z.to_nat (_size b - 1)) by lia.
  apply list_fmap_ext. intros i j Hj.
  apply lookup_seq in Hj as [-> Hlt]. apply get_pop. lia.
Qed.

(** X4. On a buffer of size above 0 traversed as [old], [pop] leaves a
    buffer traversed as [old] without its last element, of size one less,
    with the same position and capacity; this holds whether or not the
    last element's slot wraps. *)
Theorem pop_drops_last b (old : list (option T)) :
  0 < size b → traversal b = Some old →
  traversal (pop b).2 = Some (take (length old - 1) old) ∧
  size (pop b).2 = size b - 1 ∧
  _position (pop b).2 = _position b ∧ capacity (pop b).2 = capacity b.
Proof.
  unfold size. intros Hs Hold. rewrite traversal_contents in Hold.
  injection Hold as <-.
  rewrite traversal_contents, contents_pop, length_contents by lia.
  unfold pop. rewrite decide_False by lia. cbn [snd _size _position].
  split; [do 2 f_equal; lia|done].
Qed.

(** X5. On a reachable buffer of size above 0 whose position is [p], the
    value [pop] returns is the last logical element, [get(size - 1)],
    exactly when [p + size <= capacity]; otherwise it is [undefined]. *)
Theorem pop_value b (p : Z) :
  reachable b → 0 < size b → _position b = Num p →
  ((pop b).1 = get b (size b - 1) ↔ p + size b <= capacity b) ∧
  (capacity b < p + size b → (pop b).1 = None).
Proof.
  intros [Hinv Hocc]%reachable_wf Hs Hp. unfold size in *.
  pose proof (size_bounds b Hinv) as Hsz. unfold size in Hsz.
  destruct (position_bounds b Hinv ltac:(lia)) as (p' & Hp1 & Hp').
  assert (p' = p) as -> by congruence.
  assert (capacity b < p + _size b → (pop b).1 = None) as Hwrap.
  { intros Hw. unfold pop. rewrite decide_False by lia. cbn [fst].
    rewrite Hp. cbn [Number.add Number.sub]. unfold array_get.
    rewrite decide_True by lia.
    rewrite lookup_ge_None_2; [done|]. unfold capacity, array_length in *. lia. }
  split; [|done]. split.
  - intros Heq. destruct (decide (p + _size b <= capacity b)) as [|Hw]; [done|].
    rewrite Hwrap in Heq by lia.
    destruct (Hocc (_size b - 1)) as [x Hx]; [lia|congruence].
  - intros Hfit. by rewrite (pop_not_wrapped b p) by (done || lia).
Qed.

(** ** [clone] *)

(** X6. On a buffer that satisfies the invariants, [clone] returns a
    buffer with the same size, capacity and position that answers every
    [get] as the original does and is traversed in the same way. *)
Theorem clone_spec b :
  invariants b →
  size (clone b) = size b ∧ capacity (clone b) = capacity b ∧
  _position (clone b) = _position b ∧
  (∀ index, get (clone b) index = get b index) ∧
  traversal (clone b) = traversal b.
Proof.
  intros Hinv. split; [done|]. split; [done|]. split; [done|].
  assert (∀ index, get (clone b) index = get b index) as Hget.
  { intros index.
    destruct (decide (index < - _size b ∨ index >= _size b)) as [Hout|Hin].
    - by rewrite !get_out_of_range by done.
    - rewrite (get_logical (clone b)), (get_logical b) by (cbn [_size clone]; lia).
      apply get_clone; [done|]. apply logical_index_range. lia. }
  split; [done|]. rewrite !traversal_contents. f_equal. unfold contents.
  cbn [_size clone]. apply list_fmap_ext. intros _ j _. apply Hget.
Qed.

(** ** [set] *)

Lemma set_accepts b (index : Z) (item : T) :
  - _size b < index < _size b → ∃ b', set b index item = Return b'.
Proof.
  intros Hi. unfold set.
  destruct (index <=? - _size b) eqn:E1; [lia|].
  destruct (index >=? _size b) eqn:E2; [lia|]. cbn. by eexists.
Qed.

(** X7. On a buffer that satisfies the invariants and is traversed as
    [old], [set(index, item)] with [-size < index < size] returns; the
    buffer it leaves has the same size, capacity and position and is
    traversed as [old] with [item] at the logical index that [index]
    stands for. *)
Theorem set_spec b (index : Z) (item : T) (old : list (option T)) :
  invariants b → traversal b = Some old → - size b < index < size b →
  ∃ b', set b index item = Return b' ∧
    size b' = size b ∧ capacity b' = capacity b ∧
    _position b' = _position b ∧
    traversal b'
    = Some (<[Z.to_nat (logical_index b index) := Some item]> old).
Proof.
  unfold size. intros Hinv Hold Hi. rewrite traversal_contents in Hold.
  injection Hold as <-.
  destruct (set_accepts b index item Hi) as [b' Hset]. exists b'.
  split; [done|].
  pose proof (invariants_set _ _ _ _ Hinv Hset) as Hinv'.
  destruct (set_Return _ _ _ _ Hinv Hset) as (_ & p & Hp & Hp' & Hb').
  assert (_size b' = _size b) as Hs by (by rewrite Hb').
  assert (_position b' = _position b) as Hpos by (by rewrite Hb').
  assert (capacity b' = capacity b) as Hcap.
  { rewrite Hb'. unfold capacity. cbn [_buffer]. apply array_length_set.
    apply Z.mod_pos_bound. unfold capacity in Hp'. lia. }
  split; [done|]. split; [done|]. split; [done|].
  rewrite traversal_contents. f_equal.
  pose proof (logical_index_range b index ltac:(lia)) as Hli.
  apply (list_eq_same_length _ _ (Z.to_nat (_size b))).
  - by rewrite length_insert, length_contents.
  - by rewrite length_contents, Hs.
  - intros i x y Hlt Hx Hy.
    rewrite lookup_contents in Hx by (rewrite Hs; lia). injection Hx as <-.
    rewrite (get_set b index item b' _ Hinv Hset) by lia.
    assert (logical_index b (Z.of_nat i) = Z.of_nat i) as Hlog
      by (unfold logical_index; destruct (Z.of_nat i <? 0) eqn:E; lia).
    rewrite Hlog.
    destruct (decide (Z.of_nat i = logical_index b index)) as [Heq|Hne].
    + rewrite <- Heq, Nat2Z.id in Hy.
      rewrite list_lookup_insert_eq in Hy by (rewrite length_contents; lia).
      by injection Hy as <-.
    + rewrite list_lookup_insert_ne in Hy by lia.
      rewrite lookup_contents in Hy by lia. by injection Hy as <-.
Qed.

(** ** Two calls to [push] *)

Lemma push_loop_app (xs ys : list T) : ∀ a (position : number) (sz cap i : Z),
  push_loop a position sz cap (xs ++ ys) i
  = push_loop (push_loop a position sz cap xs i) position sz cap ys
              (i + Z.of_nat (length xs)).
Proof.
  induction xs as [|x xs IH]; intros a position sz cap i; cbn [push_loop app length].
  - by rewrite Z.add_0_r.
  - rewrite IH. f_equal. lia.
Qed.

(** The loop depends on the position, the size and the counter only
    through the slots they select. *)
Lemma push_loop_ext items : ∀ a (pos pos' : number) (sz sz' cap i i' : Z),
  (∀ k, 0 <= k < Z.of_nat (length items) →
     Number.rem (Number.add (Number.add pos (Num sz)) (Num (i + k))) (Num cap)
     = Number.rem (Number.add (Number.add pos' (Num sz')) (Num (i' + k))) (Num cap)) →
  push_loop a pos sz cap items i = push_loop a pos' sz' cap items i'.
Proof.
  induction items as [|x items IH]; intros a pos pos' sz sz' cap i i' Hk; [done|].
  cbn [push_loop]. cbn [length] in Hk.
  pose proof (Hk 0 ltac:(lia)) as H0. rewrite !Z.add_0_r in H0. rewrite H0.
  apply IH. intros k Hk'.
  replace (i + 1 + k) with (i + (k + 1)) by lia.
  replace (i' + 1 + k) with (i' + (k + 1)) by lia. apply Hk. lia.
Qed.

(** X8. On a buffer that satisfies the invariants, pushing [xs] and then
    [ys] leaves the same buffer (backing array, size and position) as
    pushing [xs ++ ys] in one call. *)
Theorem push_push b (xs ys : list T) :
  invariants b → push (push b xs) ys = push b (xs ++ ys).
Proof.
  intros Hinv. pose proof (capacity_push b xs Hinv) as Hcap.
  pose proof (size_bounds b Hinv) as Hsz.
  pose proof (position_bounds b Hinv) as Hpos.
  unfold size, capacity, push in Hcap, Hsz, Hpos. cbn [_buffer] in Hcap.
  unfold push. cbn [_buffer _size _position]. rewrite Hcap.
  rewrite length_app, Nat2Z.inj_add, push_loop_app.
  set (cap := array_length (_buffer b)) in *.
  set (n1 := Z.of_nat (length xs)). set (n2 := Z.of_nat (length ys)).
  assert (0 <= n1) by lia. assert (0 <= n2) by lia.
  destruct (decide (cap = 0)) as [Hz|Hnz].
  - rewrite Hz, !rem_zero. f_equal; [|lia].
    apply push_loop_ext. intros k Hk. by rewrite !rem_zero.
  - assert (0 < cap) as Hc by (unfold cap, array_length in *; lia).
    destruct (Hpos Hc) as (p & Hp & Hp'). rewrite Hp. cbn [Number.add].
    set (d1 := Z.max (_size b + n1 - cap) 0).
    assert (0 <= (p + d1) mod cap < cap) as Hmod by (by apply Z.mod_pos_bound).
    rewrite (rem_nonneg (p + d1)) by lia. cbn [Number.add].
    f_equal.
    + apply push_loop_ext. intros k Hk. cbn [Number.add].
      rewrite !rem_nonneg by lia. f_equal.
      rewrite <- !Z.add_assoc, Zplus_mod_idemp_l.
      f_equal. lia.
    + lia.
    + rewrite !rem_nonneg by lia.
      rewrite Zplus_mod_idemp_l. do 2 f_equal. lia.
Qed.

(** ** What changes the capacity *)

(** X9. On a buffer that satisfies the invariants, a call that returns
    and leaves a buffer of another capacity is [clear] or [resize]:
    [push], [pop], [shift], [set], [get], [clone] and the traversal keep
    the capacity. *)
Theorem capacity_changes_only_by_clear_resize b (c : call T) (b' : t T) :
  invariants b → run c b = Return b' → capacity b' ≠ capacity b →
  c = Clear ∨ ∃ newCapacity, c = Resize newCapacity.
Proof.
  intros Hinv Hrun Hne.
  destruct c as [items| | |index item|index| |n| |]; cbn in Hrun;
    try (injection Hrun as <-); eauto.
  - by rewrite capacity_push in Hne.
  - destruct Hne. unfold pop. by destruct (decide _).
  - destruct Hne. unfold shift. by destruct (decide _).
  - destruct (set_Return _ _ _ _ Hinv Hrun) as (_ & p & _ & Hp' & ->).
    destruct Hne. unfold capacity in *. cbn [_buffer]. apply array_length_set.
    apply Z.mod_pos_bound. lia.
  - done.
  - done.
  - done.
Qed.

(** ** The iterator *)

(** X10. Draining the iterator takes [size + 1] calls to [next]: with that
    many or more it yields [get(0)], ..., [get(size - 1)], and the call
    after the last element reports [done]. *)
Theorem iterator_drains b (fuel : nat) :
  (Z.to_nat (size b) < fuel)%nat →
  ∃ l, spread fuel b 0 = Some l ∧
       length l = Z.to_nat (size b) ∧
       (∀ i : nat, (i < length l)%nat → l !! i = Some (get b (Z.of_nat i))) ∧
       (next b (Z.of_nat (length l))).1 = Done.
Proof.
  unfold size. intros Hfuel. exists (contents b).
  split; [by rewrite spread_enough, traversal_contents|].
  rewrite length_contents. split; [done|].
  split; [intros i Hi; by apply lookup_contents|].
  unfold next. by rewrite decide_False by lia.
Qed.

(** With too few calls the iterator is not drained. *)
Lemma spread_short b : ∀ (fuel : nat) (index : Z),
  (fuel <= Z.to_nat (_size b - index))%nat → spread fuel b index = None.
Proof.
  induction fuel as [|fuel IH]; intros index Hfuel; [done|].
  cbn [spread]. unfold next. rewrite decide_True by lia.
  by rewrite IH by lia.
Qed.

(** ** Reachable buffers hold stored values *)

Lemma Forall_is_Some_fmap (l : list (option T)) :
  Forall is_Some l → ∃ xs : list T, l = Some <$> xs.
Proof.
  induction 1 as [|o l [x ->] _ [xs ->]]; [by exists []|by exists (x :: xs)].
Qed.

(** X11. The traversal of a reachable buffer yields stored values only
    (never [undefined]), as many as [size], and at most [capacity]. *)
Theorem reachable_traversal_defined b :
  reachable b →
  ∃ xs : list T, traversal b = Some (Some <$> xs) ∧
                 Z.of_nat (length xs) = size b ∧ size b <= capacity b.
Proof.
  intros [Hinv Hocc]%reachable_wf.
  pose proof (size_bounds b Hinv) as Hsz.
  apply occupied_contents, Forall_is_Some_fmap in Hocc as [xs Hxs].
  exists xs. rewrite traversal_contents, Hxs. split; [done|].
  pose proof (length_contents b) as Hlen. rewrite Hxs, length_fmap in Hlen.
  unfold size in *. lia.
Qed.

(** ** How the operations compose *)

Lemma lastn_short {A : Type} (n : nat) (l : list A) :
  (length l <= n)%nat → lastn n l = l.
Proof. intros Hl. unfold lastn. by replace (length l - n)%nat with 0%nat by lia. Qed.

(** X12. On a buffer that satisfies the invariants, with position
    [p >= 0] and [p + size < capacity], [push(x)] followed by [pop()]
    returns [x] and leaves a buffer traversed as before the two calls. *)
Theorem push_pop_roundtrip b (p : Z) (x : T) :
  invariants b → _position b = Num p → 0 <= p → p + size b < capacity b →
  (pop (push b [x])).1 = Some x ∧
  traversal (pop (push b [x])).2 = traversal b.
Proof.
  unfold size. intros Hinv Hp Hp' Hfit.
  pose proof (size_bounds b Hinv) as Hsz. unfold size in Hsz.
  pose proof (invariants_push b [x] Hinv) as Hinv'.
  pose proof (capacity_push b [x] Hinv) as Hcap.
  assert (_size (push b [x]) = _size b + 1) as Hs'
    by (cbn; fold (capacity b); lia).
  assert (_position (push b [x]) = Num p) as Hp2.
  { rewrite (position_push b [x] p) by (done || lia). cbn [length].
    rewrite Z.max_r, Z.add_0_r, Z.mod_small by lia. done. }
  assert (pop (push b [x])
          = (get (push b [x]) (_size (push b [x]) - 1),
             Build (_buffer (push b [x])) (_size (push b [x]) - 1)
                   (_position (push b [x])))) as Hpop
    by (apply (pop_not_wrapped _ p); done || lia).
  split.
  - rewrite Hpop. cbn [fst].
    apply (get_push_new b [x] _ 0 x); [done|unfold size; lia| |done].
    unfold size. cbn [length]. lia.
  - rewrite !traversal_contents. f_equal.
    rewrite contents_pop, contents_push by (done || lia).
    rewrite lastn_short
      by (rewrite length_app, length_contents; cbn [length fmap list_fmap]; lia).
    rewrite Hs'. apply take_app_length'. rewrite length_contents. lia.
Qed.

(** X13. On a buffer that satisfies the invariants and is traversed as
    [old], [resize(n)] followed by [push(items)] is traversed as [old]
    followed by [items] whenever [size + |items| <= n]: nothing is
    dropped. *)
Theorem resize_then_push b (n : nat) items (old : list (option T)) :
  invariants b → traversal b = Some old →
  size b + Z.of_nat (length items) <= Z.of_nat n →
  traversal (push (resize b n) items) = Some (old ++ (Some <$> items)).
Proof.
  unfold size. intros Hinv Hold Hn. rewrite traversal_contents in Hold.
  injection Hold as <-.
  pose proof (size_bounds b Hinv) as Hsz. unfold size in Hsz.
  rewrite traversal_contents, contents_push by (by apply invariants_resize).
  rewrite capacity_resize, contents_resize by lia.
  rewrite take_ge by (rewrite length_contents; lia).
  rewrite lastn_short; [done|].
  rewrite length_app, length_contents, length_fmap. lia.
Qed.

(** X14. [pop] on [from(xs ++ [x])] returns [x] and leaves a buffer
    traversed as [xs]. *)
Theorem pop_from (xs : list T) (x : T) :
  (pop (from (xs ++ [x]))).1 = Some x ∧
  traversal (pop (from (xs ++ [x]))).2 = Some (Some <$> xs).
Proof.
  set (b := from (xs ++ [x])).
  assert (_size b = Z.of_nat (length xs) + 1) as Hs.
  { unfold b. cbn. unfold array_length. cbn.
    rewrite length_fmap, length_app. cbn. lia. }
  assert (capacity b = Z.of_nat (length xs) + 1) as Hcap.
  { unfold b, capacity, array_length. cbn.
    rewrite length_fmap, length_app. cbn. lia. }
  assert (pop b = (get b (_size b - 1),
                   Build (_buffer b) (_size b - 1) (_position b))) as Hpop
    by (apply (pop_not_wrapped b 0); [apply invariants_from|done|lia|lia]).
  split.
  - rewrite Hpop. cbn [fst]. rewrite Hs.
    replace (Z.of_nat (length xs) + 1 - 1) with (Z.of_nat (length xs)) by lia.
    apply get_from. by rewrite lookup_app_r, Nat.sub_diag by lia.
  - rewrite traversal_contents, contents_pop by lia.
    unfold b. rewrite contents_from. fold b. rewrite Hs, fmap_app.
    rewrite take_app_length'; [done|]. rewrite length_fmap. lia.
Qed.

(** X15. On a full buffer (size equal to capacity, above 0) that satisfies
    the invariants, [push(x)] leaves the same buffer as [shift()] followed
    by [push(x)]. *)
Theorem push_full_is_shift_push b (x : T) :
  invariants b → 0 < size b → size b = capacity b →
  push b [x] = push (shift b).2 [x].
Proof.
  unfold size, capacity. intros Hinv Hs Hfull.
  destruct (position_bounds b Hinv ltac:(unfold capacity; lia)) as (p & Hp & Hp').
  unfold capacity in Hp'.
  unfold shift. rewrite decide_False by lia. cbn [snd].
  unfold push. cbn [_buffer _size _position push_loop length].
  set (cap := array_length (_buffer b)) in *.
  rewrite Hp. cbn [Number.add].
  assert (0 <= (p + 1) mod cap < cap) as Hmod by (apply Z.mod_pos_bound; lia).
  rewrite (rem_nonneg (p + 1)) by lia. cbn [Number.add].
  rewrite !rem_nonneg by lia.
  assert (((p + 1) mod cap + (_size b - 1) + 0) mod cap
          = (p + _size b + 0) mod cap) as ->.
  { rewrite <- !Z.add_assoc, Zplus_mod_idemp_l. f_equal. lia. }
  rewrite Zplus_mod_idemp_l.
  f_equal; [lia|]. do 2 f_equal. lia.
Qed.

(** X16. On a buffer of capacity above 0 that satisfies the invariants,
    after [push] of a non-empty list of items [get(-1)] returns the last
    item pushed. *)
Theorem get_newest_after_push b items (x : T) :
  invariants b → 0 < capacity b →
  get (push b (items ++ [x])) (-1) = Some x.
Proof.
  intros Hinv Hcap. pose proof (size_bounds b Hinv) as Hsz. unfold size in Hsz.
  set (b' := push b (items ++ [x])).
  assert (Z.of_nat (length (items ++ [x])) = Z.of_nat (length items) + 1) as Hlen
    by (rewrite length_app; cbn; lia).
  assert (_size b' = Z.min (_size b + Z.of_nat (length items) + 1) (capacity b))
    as Hs' by (unfold b'; cbn; fold (capacity b); lia).
  replace (-1) with ((_size b' - 1) - _size b') by lia.
  rewrite get_negative by lia.
  apply (get_push_new b (items ++ [x]) _ (length items) x);
    [done|unfold size; fold b'; lia| |].
  - unfold size. fold b'. lia.
  - by rewrite lookup_app_r, Nat.sub_diag by lia.
Qed.

End Properties.

(** * The scenarios of src/mod.test.ts, evaluated on the embedding *)

Example test_withCapacity :
  capacity (withCapacity (T:=Z) 3) = 3 ∧ size (withCapacity (T:=Z) 3) = 0.
Proof. done. Qed.

Example test_push :
  traversal (push (withCapacity 3) [1; 2; 3]) = Some [Some 1; Some 2; Some 3] ∧
  size (push (withCapacity 3) [1; 2; 3]) = 3.
Proof. done. Qed.

Example test_push_overwrites :
  traversal (push (push (push (push (withCapacity 3) [1]) [2]) [3]) [4])
  = Some [Some 2; Some 3; Some 4].
Proof. reflexivity. Qed.

Example test_push_more_than_capacity :
  traversal (push (withCapacity 3) [1; 2; 3; 4]) = Some [Some 2; Some 3; Some 4].
Proof. reflexivity. Qed.

Example test_pop :
  (pop (from [1; 2; 3])).1 = Some 3 ∧
  traversal (pop (from [1; 2; 3])).2 = Some [Some 1; Some 2].
Proof. done. Qed.

Example test_shift :
  (shift (from [1; 2; 3])).1 = Some 1 ∧
  traversal (shift (from [1; 2; 3])).2 = Some [Some 2; Some 3].
Proof. done. Qed.

Example test_get :
  get (from [1; 2; 3]) <$> [3; 2; 1; 0; -1; -2; -3; -4]
  = [None; Some 3; Some 2; Some 1; Some 3; Some 2; Some 1; None].
Proof. reflexivity. Qed.

Example test_set :
  (∃ r, set (from [1; 2; 3]) 1 5 = Return r ∧
        traversal r = Some [Some 1; Some 5; Some 3]) ∧
  set (from [1; 2; 3]) 5 7 = ThrowRangeError.
Proof. split; [eexists; split; reflexivity|done]. Qed.

Example test_clear :
  size (clear (from [1; 2; 3])) = 0 ∧ traversal (clear (from [1; 2; 3])) = Some [].
Proof. done. Qed.

Example test_resize :
  capacity (resize (from [1; 2; 3]) 5) = 5 ∧
  traversal (resize (from [1; 2; 3]) 5) = Some [Some 1; Some 2; Some 3] ∧
  traversal (push (resize (from [1; 2; 3]) 5) [4])
  = Some [Some 1; Some 2; Some 3; Some 4].
Proof. done. Qed.

Example test_clone :
  traversal (clone (from [1; 2; 3])) = Some [Some 1; Some 2; Some 3] ∧
  traversal (push (clone (from [1; 2; 3])) [4]) = Some [Some 2; Some 3; Some 4] ∧
  traversal (from [1; 2; 3]) = Some [Some 1; Some 2; Some 3].
Proof. done. Qed.

(** * The theorems at concrete buffers *)

Lemma push_keeps_newest_witness :
  let b := push (withCapacity 3) [1; 2] in
  invariants b ∧ traversal b = Some [Some 1; Some 2] ∧
  size (push b [3; 4; 5]) = 3 ∧
  traversal (push b [3; 4; 5]) = Some [Some 3; Some 4; Some 5].
Proof.
  cbv zeta.
  assert (invariants (push (withCapacity 3) [1; 2])) as Hinv
    by apply invariants_push, invariants_withCapacity.
  split; [exact Hinv|]. split; [reflexivity|].
  exact (push_keeps_newest (push (withCapacity 3) [1; 2]) [3; 4; 5]
           [Some 1; Some 2] Hinv eq_refl).
Defined.

Lemma resize_keeps_oldest_witness :
  let b := push (withCapacity 3) [1; 2; 3; 4] in
  invariants b ∧ traversal b = Some [Some 2; Some 3; Some 4] ∧
  capacity (resize b 2) = 2 ∧ size (resize b 2) = 2 ∧
  _position (resize b 2) = Num 0 ∧
  traversal (resize b 2) = Some [Some 2; Some 3].
Proof.
  cbv zeta.
  assert (invariants (push (withCapacity 3) [1; 2; 3; 4])) as Hinv
    by apply invariants_push, invariants_withCapacity.
  split; [exact Hinv|]. split; [reflexivity|].
  exact (resize_keeps_oldest (push (withCapacity 3) [1; 2; 3; 4]) 2
           [Some 2; Some 3; Some 4] Hinv eq_refl).
Defined.

Lemma get_negative_alias_witness :
  let b := push (withCapacity 3) [1; 2; 3; 4] in
  reachable b ∧
  (∀ i, 0 <= i <= size b - 1 → get b i = get b (i - size b)) ∧
  (∀ index, get b index = None ↔ index < - size b ∨ index >= size b).
Proof.
  cbv zeta.
  assert (reachable (push (withCapacity 3) [1; 2; 3; 4])) as Hreach
    by (apply (reachable_run (Push [1; 2; 3; 4]) (withCapacity 3));
        [constructor|reflexivity]).
  split; [exact Hreach|].
  exact (get_negative_alias (push (withCapacity 3) [1; 2; 3; 4]) Hreach).
Defined.

Lemma invariants_preserved_witness :
  let b := push (withCapacity 3) [1; 2; 3; 4] in
  reachable b ∧ invariants b ∧
  run Shift b = Return (shift b).2 ∧ invariants (shift b).2.
Proof.
  cbv zeta.
  assert (reachable (push (withCapacity 3) [1; 2; 3; 4])) as Hreach
    by (apply (reachable_run (Push [1; 2; 3; 4]) (withCapacity 3));
        [constructor|reflexivity]).
  pose proof (invariants_preserved (push (withCapacity 3) [1; 2; 3; 4]) Shift
                (shift (push (withCapacity 3) [1; 2; 3; 4])).2)
    as (_ & _ & Hstep & Hall).
  split; [exact Hreach|]. split; [exact (Hall Hreach)|].
  split; [reflexivity|]. exact (Hstep (Hall Hreach) eq_refl).
Defined.

Lemma zero_capacity_absorbing_witness :
  let b := clear (from [1; 2; 3]) in
  invariants b ∧ capacity b = 0 ∧
  traversal (push b [4; 5]) = Some [] ∧
  traversal (push (resize b 2) [6]) = Some [Some 6].
Proof.
  cbv zeta.
  assert (invariants (clear (from [1; 2; 3]))) as Hinv by apply invariants_clear.
  destruct (zero_capacity_absorbing (clear (from [1; 2; 3]))) as [_ Hzero].
  destruct (Hzero Hinv eq_refl) as (Hpush & _ & _ & _ & _ & Hresize).
  split; [exact Hinv|]. split; [reflexivity|].
  split; [exact (proj2 (proj2 (proj2 (Hpush [4; 5]))))|].
  exact (Hresize 2%nat 6 ltac:(lia)).
Defined.

(** * The further properties at concrete buffers *)

Lemma empty_buffer_witness :
  let b := withCapacity (T:=Z) 3 in
  _size b = 0 ∧ pop b = (None, b) ∧ shift b = (None, b) ∧
  set b 0 7 = ThrowRangeError.
Proof.
  cbv zeta.
  destruct (empty_buffer (withCapacity (T:=Z) 3) eq_refl)
    as (Hpop & Hshift & _ & Hset & _).
  split; [reflexivity|]. split; [exact Hpop|]. split; [exact Hshift|].
  exact (Hset 0 7).
Defined.

Lemma shift_spec_witness :
  let b := push (withCapacity 3) [1; 2; 3; 4] in
  invariants b ∧ traversal b = Some [Some 2; Some 3; Some 4] ∧
  (shift b).1 = Some 2 ∧ traversal (shift b).2 = Some [Some 3; Some 4].
Proof.
  cbv zeta.
  assert (invariants (push (withCapacity 3) [1; 2; 3; 4])) as Hinv
    by apply invariants_push, invariants_withCapacity.
  destruct (shift_spec (push (withCapacity 3) [1; 2; 3; 4]) (Some 2)
              [Some 3; Some 4] Hinv eq_refl) as (Hx & Hrest & _).
  split; [exact Hinv|]. split; [reflexivity|]. split; [exact Hx|exact Hrest].
Defined.

Lemma pop_drops_last_witness :
  let b := push (withCapacity 3) [1; 2; 3; 4] in
  0 < size b ∧ traversal b = Some [Some 2; Some 3; Some 4] ∧
  traversal (pop b).2 = Some [Some 2; Some 3] ∧ size (pop b).2 = 2.
Proof.
  cbv zeta.
  destruct (pop_drops_last (push (withCapacity 3) [1; 2; 3; 4])
              [Some 2; Some 3; Some 4] eq_refl eq_refl) as (Htr & Hs & _).
  split; [reflexivity|]. split; [reflexivity|]. split; [exact Htr|exact Hs].
Defined.

Lemma pop_value_witness :
  let b := push (withCapacity 3) [1; 2; 3; 4] in
  reachable b ∧ 0 < size b ∧ _position b = Num 1 ∧ capacity b < 1 + size b ∧
  (pop b).1 = None.
Proof.
  cbv zeta.
  assert (reachable (push (withCapacity 3) [1; 2; 3; 4])) as Hreach
    by (apply (reachable_run (Push [1; 2; 3; 4]) (withCapacity 3));
        [constructor|reflexivity]).
  destruct (pop_value (push (withCapacity 3) [1; 2; 3; 4]) 1 Hreach
              eq_refl eq_refl) as [_ Hwrap].
  split; [exact Hreach|]. split; [reflexivity|]. split; [reflexivity|].
  split; [reflexivity|]. exact (Hwrap eq_refl).
Defined.

Lemma clone_spec_witness :
  let b := push (withCapacity 3) [1; 2; 3; 4] in
  invariants b ∧ size (clone b) = size b ∧ traversal (clone b) = traversal b.
Proof.
  cbv zeta.
  assert (invariants (push (withCapacity 3) [1; 2; 3; 4])) as Hinv
    by apply invariants_push, invariants_withCapacity.
  destruct (clone_spec (push (withCapacity 3) [1; 2; 3; 4]) Hinv)
    as (Hs & _ & _ & _ & Htr).
  split; [exact Hinv|]. split; [exact Hs|exact Htr].
Defined.

Lemma set_spec_witness :
  let b := push (withCapacity 3) [1; 2; 3; 4] in
  invariants b ∧ traversal b = Some [Some 2; Some 3; Some 4] ∧
  - size b < -1 < size b ∧
  ∃ r, set b (-1) 9 = Return r ∧
       traversal r = Some [Some 2; Some 3; Some 9].
Proof.
  cbv zeta.
  assert (invariants (push (withCapacity 3) [1; 2; 3; 4])) as Hinv
    by apply invariants_push, invariants_withCapacity.
  destruct (set_spec (push (withCapacity 3) [1; 2; 3; 4]) (-1) 9
              [Some 2; Some 3; Some 4] Hinv eq_refl (conj eq_refl eq_refl))
    as (r & Hset & _ & _ & _ & Htr).
  split; [exact Hinv|]. split; [reflexivity|].
  split; [exact (conj eq_refl eq_refl)|].
  exists r. split; [exact Hset|exact Htr].
Defined.

Lemma push_push_witness :
  let b := push (withCapacity 3) [1; 2] in
  invariants b ∧ push (push b [3; 4]) [5] = push b [3; 4; 5].
Proof.
  cbv zeta.
  assert (invariants (push (withCapacity 3) [1; 2])) as Hinv
    by apply invariants_push, invariants_withCapacity.
  split; [exact Hinv|].
  exact (push_push (push (withCapacity 3) [1; 2]) [3; 4] [5] Hinv).
Defined.

Lemma capacity_changes_only_by_clear_resize_witness :
  let b := from [1; 2; 3] in
  invariants b ∧ run Clear b = Return (clear b) ∧
  capacity (clear b) ≠ capacity b ∧
  (Clear = Clear (T:=Z) ∨ ∃ newCapacity, Clear = Resize (T:=Z) newCapacity).
Proof.
  cbv zeta.
  assert (capacity (clear (from [1; 2; 3])) ≠ capacity (from [1; 2; 3])) as Hne
    by (intros H; vm_compute in H; discriminate H).
  split; [apply invariants_from|]. split; [reflexivity|]. split; [exact Hne|].
  exact (capacity_changes_only_by_clear_resize (from [1; 2; 3]) Clear
           (clear (from [1; 2; 3])) (invariants_from [1; 2; 3]) eq_refl Hne).
Defined.

Lemma iterator_drains_witness :
  let b := push (withCapacity 3) [1; 2; 3; 4] in
  (Z.to_nat (size b) < 5)%nat ∧
  ∃ l, spread 5 b 0 = Some l ∧ length l = Z.to_nat (size b).
Proof.
  cbv zeta.
  assert (Z.to_nat (size (push (withCapacity 3) [1; 2; 3; 4])) < 5)%nat as Hfuel
    by (vm_compute; lia).
  destruct (iterator_drains (push (withCapacity 3) [1; 2; 3; 4]) 5 Hfuel)
    as (l & Hl & Hlen & _).
  split; [exact Hfuel|]. exists l. split; [exact Hl|exact Hlen].
Defined.

Lemma reachable_traversal_defined_witness :
  let b := push (withCapacity 3) [1; 2; 3; 4] in
  reachable b ∧
  ∃ xs : list Z, traversal b = Some (Some <$> xs) ∧
                 Z.of_nat (length xs) = size b ∧ size b <= capacity b.
Proof.
  cbv zeta.
  assert (reachable (push (withCapacity 3) [1; 2; 3; 4])) as Hreach
    by (apply (reachable_run (Push [1; 2; 3; 4]) (withCapacity 3));
        [constructor|reflexivity]).
  split; [exact Hreach|].
  exact (reachable_traversal_defined (push (withCapacity 3) [1; 2; 3; 4]) Hreach).
Defined.

Lemma push_pop_roundtrip_witness :
  let b := push (withCapacity 3) [1] in
  invariants b ∧ _position b = Num 0 ∧ 0 + size b < capacity b ∧
  (pop (push b [2])).1 = Some 2 ∧
  traversal (pop (push b [2])).2 = traversal b.
Proof.
  cbv zeta.
  assert (invariants (push (withCapacity 3) [1])) as Hinv
    by apply invariants_push, invariants_withCapacity.
  split; [exact Hinv|]. split; [reflexivity|]. split; [reflexivity|].
  exact (push_pop_roundtrip (push (withCapacity 3) [1]) 0 2 Hinv eq_refl
           ltac:(lia) eq_refl).
Defined.

Lemma resize_then_push_witness :
  let b := from [1; 2; 3] in
  invariants b ∧ traversal b = Some [Some 1; Some 2; Some 3] ∧
  size b + 1 <= 5 ∧
  traversal (push (resize b 5) [4]) = Some [Some 1; Some 2; Some 3; Some 4].
Proof.
  cbv zeta.
  split; [apply invariants_from|]. split; [reflexivity|].
  split; [vm_compute; discriminate|].
  exact (resize_then_push (from [1; 2; 3]) 5 [4] [Some 1; Some 2; Some 3]
           (invariants_from [1; 2; 3]) eq_refl ltac:(vm_compute; discriminate)).
Defined.

Lemma push_full_is_shift_push_witness :
  let b := from [1; 2; 3] in
  invariants b ∧ 0 < size b ∧ size b = capacity b ∧
  push b [4] = push (shift b).2 [4].
Proof.
  cbv zeta.
  split; [apply invariants_from|]. split; [reflexivity|]. split; [reflexivity|].
  exact (push_full_is_shift_push (from [1; 2; 3]) 4
           (invariants_from [1; 2; 3]) eq_refl eq_refl).
Defined.

Lemma get_newest_after_push_witness :
  let b := push (withCapacity 3) [1; 2; 3; 4] in
  invariants b ∧ 0 < capacity b ∧ get (push b [5; 6]) (-1) = Some 6.
Proof.
  cbv zeta.
  assert (invariants (push (withCapacity 3) [1; 2; 3; 4])) as Hinv
    by apply invariants_push, invariants_withCapacity.
  split; [exact Hinv|]. split; [reflexivity|].
  exact (get_newest_after_push (push (withCapacity 3) [1; 2; 3; 4]) [5] 6
           Hinv eq_refl).
Defined.
